(** * The filter-aggregate-render pipeline of [dashboard.py]

    A shallow embedding of the data path of the dashboard callback
    [update_graphs] (dashboard.py, lines 161-224) and of the module-level
    values it depends on (the table [df] read at line 9, the slider and
    dropdown defaults of lines 93-106).

    pandas objects are modelled by what the calls of the source observe:
    - a DataFrame of customer rows is a list of (index label, row) pairs,
      in row order; [read_csv] gives the labels 0, 1, 2, ...;
    - a Series is the list of its values, in row order;
    - a boolean Series is a [list bool]; [&] is element-wise;
    - [df[mask]] keeps the rows whose mask entry is [True], with their
      labels, in order;
    - a score cell holds the number the file gives (an int64 or a float64
      value), kept as the rational it denotes ([Q]); means are computed
      in float64 as pandas computes them, and a mean that is not a finite
      number (the NaN of a mean of no values) is [None];
    - every cell of the table holds a value of its column's type: ages
      and counts are integers, locations are strings; missing cells are
      not modelled. *)

From Stdlib Require Import ZArith QArith Qreduction String.
From Stdlib Require SpecFloat.
From stdpp Require Import base tactics option list sorting strings.
From stdpp Require Import gmap pretty.

Local Open Scope string_scope.
Local Open Scope Z_scope.
#[local] Set Warnings "-clear-no-such-hyp".

(** ** Data model *)

Inductive RetentionStatus := Retained | Churned.

(** One row of [customer_experience_data.csv]; the field names are the
    column names the source uses. *)
Record CustomerRecord := {
  Age : Z;
  Location : string;
  Satisfaction_Score : Q;
  Feedback_Score : Q;
  Time_Spent_on_Site : Q;
  Products_Purchased : Z;
  Products_Viewed : Z;
  Retention_Status : RetentionStatus
}.

(** A frame of customer rows: index label and row, in row order. *)
Abbreviation DataFrame := (list (nat * CustomerRecord)).

(** [pd.read_csv]: the rows of the file under a fresh [RangeIndex]. *)
Definition read_csv (rows : list CustomerRecord) : DataFrame :=
  imap (λ i r, (i, r)) rows.

(** [df[c]]: the column [c] of a frame, as a Series. *)
Definition col {A} (c : CustomerRecord → A) (df : DataFrame) : list A :=
  (λ p, c p.2) <$> df.

(** ** Series operations used by the callback *)

(** [s >= v], [s <= v], [s.isin(values)] and [a & b]. *)
Definition series_ge (s : list Z) (v : Z) : list bool :=
  (λ x, bool_decide (v ≤ x)) <$> s.

Definition series_le (s : list Z) (v : Z) : list bool :=
  (λ x, bool_decide (x ≤ v)) <$> s.

Definition isin (s : list string) (values : list string) : list bool :=
  (λ x, bool_decide (x ∈ values)) <$> s.

Definition series_and (a b : list bool) : list bool := zip_with andb a b.

(** [df[mask]] for a boolean Series [mask] over the index of [df]. *)
Fixpoint getitem_mask (df : DataFrame) (mask : list bool) : DataFrame :=
  match df, mask with
  | p :: df', b :: mask' =>
      if b then p :: getitem_mask df' mask' else getitem_mask df' mask'
  | _, _ => []
  end.

(** [Series.min()] and [Series.max()]; [None] is the NaN of an empty
    Series. *)
Definition series_min (s : list Z) : option Z :=
  match s with
  | [] => None
  | x :: s' => Some (foldr Z.min x s')
  end.

Definition series_max (s : list Z) : option Z :=
  match s with
  | [] => None
  | x :: s' => Some (foldr Z.max x s')
  end.

(** [Series.unique()]: the distinct values, in order of first appearance. *)
Fixpoint unique (s : list string) : list string :=
  match s with
  | [] => []
  | x :: s' => x :: filter (λ y, y ≠ x) (unique s')
  end.

(** ** float64

    IEEE 754 binary64 with round to nearest even, as the inductive
    specification of the Standard Library gives it. *)
Abbreviation f64 := SpecFloat.spec_float.
Abbreviation f64_zero := (SpecFloat.S754_zero false).
Abbreviation f64_add := (SpecFloat.SFadd 53 1024).
Abbreviation f64_sub := (SpecFloat.SFsub 53 1024).
Abbreviation f64_div := (SpecFloat.SFdiv 53 1024).

(** An integer as a float64 (the cast of a count). *)
Definition f64_of_Z (n : Z) : f64 :=
  SpecFloat.binary_normalize 53 1024 n 0 false.

(** The float64 nearest to the number a cell holds: the cell itself for
    a float64 column, its cast for an int64 column. *)
Definition f64_of_Q (q : Q) : f64 :=
  match Qnum q with
  | Z0 => f64_zero
  | Zpos n =>
      f64_div (SpecFloat.S754_finite false n 0)
              (SpecFloat.S754_finite false (Qden q) 0)
  | Zneg n =>
      f64_div (SpecFloat.S754_finite true n 0)
              (SpecFloat.S754_finite false (Qden q) 0)
  end.

(** The number a float64 denotes; [None] for NaN and the infinities. *)
Definition f64_to_Q (x : f64) : option Q :=
  match x with
  | SpecFloat.S754_zero _ => Some 0%Q
  | SpecFloat.S754_finite sign m e =>
      let v := (inject_Z (Zpos m) * Qpower 2 e)%Q in
      Some (Qred (if sign then Qopp v else v))
  | _ => None
  end.

Definition f64_isnan (x : f64) : bool :=
  match x with
  | SpecFloat.S754_nan => true
  | _ => false
  end.

(** The float64 mean of the values of one group, in row order: their
    compensated (Kahan) sum over their count. *)
Fixpoint kahan_sum (total c : f64) (values : list f64) : f64 :=
  match values with
  | [] => total
  | val :: rest =>
      let y := f64_sub val c in
      let t := f64_add total y in
      let c' := f64_sub (f64_sub t total) y in
      kahan_sum t (if f64_isnan c' then f64_zero else c') rest
  end.

Definition series_mean (s : list Q) : option Q :=
  f64_to_Q (f64_div (kahan_sum f64_zero f64_zero (f64_of_Q <$> s))
                    (f64_of_Z (Z.of_nat (length s)))).

(** The arithmetic mean in the words of the specification: the exact sum
    over the count. *)
Definition series_sum (s : list Q) : Q := foldr Qplus 0%Q s.

Definition arithmetic_mean (s : list Q) : Q :=
  (series_sum s / inject_Z (Z.of_nat (length s)))%Q.

(** ** Filter stage (lines 162-166) *)

Definition filtered_df (df : DataFrame) (age_min age_max : Z)
    (locations : list string) : DataFrame :=
  getitem_mask df
    (series_and
       (series_and (series_ge (col Age df) age_min)
                   (series_le (col Age df) age_max))
       (isin (col Location df) locations)).

(** The row predicate the mask of [filtered_df] computes. *)
Definition selected (age_min age_max : Z) (locations : list string)
    (r : CustomerRecord) : Prop :=
  age_min ≤ Age r ∧ Age r ≤ age_max ∧ Location r ∈ locations.

Global Instance selected_dec age_min age_max locations r :
  Decision (selected age_min age_max locations r).
Proof. unfold selected. apply _. Defined.

(** ** Aggregation stage (lines 193-202) *)

(** A row of [grouped_location_df]: the group key and the two named
    aggregations. The frame has a fresh [RangeIndex] ([as_index=False]),
    so it is the list of its rows. *)
Record LocationAggregate := {
  grp_Location : string;
  Avg_Satisfaction_Score : option Q;
  Avg_Feedback_Score : option Q
}.

(** A row of [melted_location_df]. *)
Record MeltedRow := {
  mlt_Location : string;
  Metric : string;
  Average_Score : option Q
}.

(** The keys of [groupby('Location')]: the distinct locations of the
    frame, sorted ([sort=True] is the default). *)
Definition group_keys (subset : DataFrame) : list string :=
  merge_sort String.le (unique (col Location subset)).

(** The rows of one group, in frame order. *)
Definition get_group (subset : DataFrame) (k : string) : DataFrame :=
  filter (λ p, Location p.2 = k) subset.

(** The accumulators pandas keeps for one group and one column while it
    computes a grouped mean: the running sum, its compensation term and
    the number of values seen. *)
Record mean_acc := {
  sumx : f64;
  compensation : f64;
  nobs : Z
}.

Definition mean_acc_zero : mean_acc :=
  {| sumx := f64_zero; compensation := f64_zero; nobs := 0 |}.

(** One row of the pass: the value is added to its group's sum with
    Kahan compensation; a compensation that came out NaN is reset. *)
Definition mean_acc_add (a : mean_acc) (val : f64) : mean_acc :=
  let y := f64_sub val (compensation a) in
  let t := f64_add (sumx a) y in
  let c := f64_sub (f64_sub t (sumx a)) y in
  {| sumx := t;
     compensation := if f64_isnan c then f64_zero else c;
     nobs := nobs a + 1 |}.

(** The grouped mean of one column: a single pass over the rows, each
    row updating the accumulators of its own group, then sum over count
    for each key in key order. The accumulators are kept here under the
    group's key; pandas keeps them under the position of the key. *)
Definition group_mean (keys labels : list string) (values : list f64)
    : list f64 :=
  let accs : gmap string mean_acc :=
    foldl (λ accs lv,
             <[lv.1 := mean_acc_add (default mean_acc_zero (accs !! lv.1))
                                    lv.2]> accs)
          ∅ (zip labels values) in
  (λ k, let a := default mean_acc_zero (accs !! k) in
        f64_div (sumx a) (f64_of_Z (nobs a))) <$> keys.

(** [subset.groupby('Location', as_index=False).agg(
       Avg_Satisfaction_Score=('Satisfaction_Score', 'mean'),
       Avg_Feedback_Score=('Feedback_Score', 'mean'))]. *)
Definition grouped_location_df (subset : DataFrame) : list LocationAggregate :=
  let keys := group_keys subset in
  let labels := col Location subset in
  let sat := group_mean keys labels (f64_of_Q <$> col Satisfaction_Score subset) in
  let fb := group_mean keys labels (f64_of_Q <$> col Feedback_Score subset) in
  zip_with (λ k v, {| grp_Location := k;
                      Avg_Satisfaction_Score := f64_to_Q v.1;
                      Avg_Feedback_Score := f64_to_Q v.2 |})
           keys (zip sat fb).

(** [grouped.melt(id_vars='Location',
       value_vars=['Avg_Satisfaction_Score', 'Avg_Feedback_Score'],
       var_name='Metric', value_name='Average_Score')]: the rows of the
    first value column, then the rows of the second. *)
Definition melted_location_df (grouped : list LocationAggregate)
    : list MeltedRow :=
  ((λ e, {| mlt_Location := grp_Location e;
            Metric := "Avg_Satisfaction_Score";
            Average_Score := Avg_Satisfaction_Score e |}) <$> grouped)
  ++
  ((λ e, {| mlt_Location := grp_Location e;
            Metric := "Avg_Feedback_Score";
            Average_Score := Avg_Feedback_Score e |}) <$> grouped).

(** ** Render stage

    A figure is the declarative description the [plotly.express] call is
    given: the chart type, the frame it draws and the column bound to
    each visual channel. Colours, marker sizes and the like are constants
    of the source and are left out. *)

Inductive ChartType := pie | scatter_3d | bar | scatter.

Inductive FigureData :=
  | Records (d : DataFrame)
  | Tidy (d : list MeltedRow).

Record Figure := {
  chart : ChartType;
  data : FigureData;
  bindings : list (string * string);
  title : string;
  template : string
}.

Definition px (c : ChartType) (d : FigureData)
    (bs : list (string * string)) (t : string) : Figure :=
  {| chart := c; data := d; bindings := bs; title := t;
     template := "plotly" |}.

Definition update_layout (f : Figure) (tpl : string) : Figure :=
  {| chart := chart f; data := data f; bindings := bindings f;
     title := title f; template := tpl |}.

Definition satisfaction_dist_fig (subset : DataFrame) : Figure :=
  update_layout
    (px pie (Records subset)
        [("values", "Satisfaction_Score"); ("names", "Satisfaction_Score")]
        "Customer Satisfaction Snapshot")
    "plotly_white".

Definition age_satisfaction_fig (subset : DataFrame) : Figure :=
  update_layout
    (px scatter_3d (Records subset)
        [("x", "Age"); ("y", "Satisfaction_Score");
         ("z", "Time_Spent_on_Site"); ("color", "Retention_Status");
         ("symbol", "Retention_Status")]
        "3D Insight: Age, Satisfaction & Site Engagement")
    "plotly_white".

Definition location_analysis_fig (melted : list MeltedRow) : Figure :=
  update_layout
    (px bar (Tidy melted)
        [("x", "Location"); ("y", "Average_Score"); ("color", "Metric")]
        "Location Performance: Satisfaction & Feedback")
    "plotly_white".

Definition products_analysis_fig (subset : DataFrame) : Figure :=
  update_layout
    (px scatter (Records subset)
        [("x", "Products_Purchased"); ("y", "Products_Viewed");
         ("size", "Time_Spent_on_Site"); ("color", "Retention_Status");
         ("animation_frame", "Satisfaction_Score")]
        "Animated: Product Interaction Dynamics & Retention")
    "plotly_white".

(** ** Module state and the callback *)

(** The module-level data of [dashboard.py]: the table and the frames
    computed from it at import time (lines 9-27). *)
Module Globals.
Record t := {
  df : DataFrame;
  initial_grouped_df : list LocationAggregate;
  initial_melted_df : list MeltedRow
}.
End Globals.

Definition module_init (rows : list CustomerRecord) : Globals.t :=
  let table := read_csv rows in
  let grouped := grouped_location_df table in
  {| Globals.df := table;
     Globals.initial_grouped_df := grouped;
     Globals.initial_melted_df := melted_location_df grouped |}.

(** The initial values of the two controls (lines 95 and 106). *)
Definition age_range_value (table : DataFrame) : list (option Z) :=
  [series_min (col Age table); series_max (col Age table)].

Definition location_filter_value (table : DataFrame) : list string :=
  unique (col Location table).

(** Python code that reads module state and may raise. *)
Inductive exn := IndexError.

Inductive result (A : Type) :=
  | Ok (a : A)
  | Raise (e : exn).
Arguments Ok {A} a.
Arguments Raise {A} e.

Definition Py (A : Type) : Type := Globals.t → result A * Globals.t.

Definition py_ret {A} (a : A) : Py A := λ g, (Ok a, g).

Definition py_bind {A B} (m : Py A) (k : A → Py B) : Py B :=
  λ g, match m g with
       | (Ok a, g') => k a g'
       | (Raise e, g') => (Raise e, g')
       end.

Definition py_raise {A} (e : exn) : Py A := λ g, (Raise e, g).

(** Reading a module-level name. *)
Definition load_global {A} (name : Globals.t → A) : Py A :=
  λ g, (Ok (name g), g).

(** [l[i]] on a Python list, for an index [i >= 0]. *)
Definition getitem (l : list Z) (i : nat) : Py Z :=
  match l !! i with
  | Some x => py_ret x
  | None => py_raise IndexError
  end.

Notation "x ⇐ m ;; k" := (py_bind m (λ x, k))
  (at level 100, m at next level, right associativity).

(** The callback. No statement of it assigns to [df] or calls a method
    that updates a frame in place, so the only access to module state is
    the read of [df]. *)
Definition update_graphs (age_range : list Z) (locations : list string)
    : Py (Figure * Figure * Figure * Figure) :=
  table ⇐ load_global Globals.df ;;
  age_min ⇐ getitem age_range 0 ;;
  age_max ⇐ getitem age_range 1 ;;
  let subset := filtered_df table age_min age_max locations in
  let grouped := grouped_location_df subset in
  let melted := melted_location_df grouped in
  py_ret (satisfaction_dist_fig subset, age_satisfaction_fig subset,
          location_analysis_fig melted, products_analysis_fig subset).

(** ** Running examples *)

Definition row (a : Z) (l : string) (sat fb : Q) : CustomerRecord :=
  {| Age := a; Location := l; Satisfaction_Score := sat;
     Feedback_Score := fb; Time_Spent_on_Site := 10%Q;
     Products_Purchased := 1; Products_Viewed := 2;
     Retention_Status := Retained |}.

Definition sample : DataFrame :=
  read_csv [row 25 "NY" 4 3; row 40 "NY" 2 5; row 30 "LA" 5 4].

(** Three rows of one location with satisfaction scores 1, 2 and 2. *)
Definition thirds : DataFrame :=
  read_csv [row 30 "NY" 1 3; row 31 "NY" 2 3; row 32 "NY" 2 3].

(** ** Figures prepared at import time (lines 28-73)

    The four figures the layout shows before any callback has run. They
    are built from the whole table, and the bar chart from
    [initial_melted_df]. *)

Definition initial_location_analysis_fig (g : Globals.t) : Figure :=
  update_layout
    (px bar (Tidy (Globals.initial_melted_df g))
        [("x", "Location"); ("y", "Average_Score"); ("color", "Metric")]
        "Location Performance: Satisfaction & Feedback")
    "plotly_white".

Definition initial_satisfaction_fig (g : Globals.t) : Figure :=
  update_layout
    (px pie (Records (Globals.df g))
        [("values", "Satisfaction_Score"); ("names", "Satisfaction_Score")]
        "Customer Satisfaction Snapshot")
    "plotly_white".

Definition initial_age_satisfaction_fig (g : Globals.t) : Figure :=
  update_layout
    (px scatter_3d (Records (Globals.df g))
        [("x", "Age"); ("y", "Satisfaction_Score");
         ("z", "Time_Spent_on_Site"); ("color", "Retention_Status");
         ("symbol", "Retention_Status")]
        "3D Insight: Age, Satisfaction & Site Engagement")
    "plotly_white".

Definition initial_products_analysis_fig (g : Globals.t) : Figure :=
  update_layout
    (px scatter (Records (Globals.df g))
        [("x", "Products_Purchased"); ("y", "Products_Viewed");
         ("size", "Time_Spent_on_Site"); ("color", "Retention_Status");
         ("animation_frame", "Satisfaction_Score")]
        "Animated: Product Interaction Dynamics & Retention")
    "plotly_white".

(** ** The two filter controls of the layout (lines 91-109) *)

Module Layout.

(** What building the layout can raise: [int] of a NaN. *)
Inductive exn := ValueError.

(** [int(x)] for the result of [Series.min()] or [Series.max()]. *)
Definition int (x : option Z) : exn + Z :=
  match x with
  | Some n => inr n
  | None => inl ValueError
  end.

(** [range(start, stop, step)] for a step above zero, as a list. *)
Definition range (start stop step : Z) : list Z :=
  (λ k, start + step * k) <$> seqZ 0 ((stop - start + step - 1) `div` step).

(** [str(n)] and [f"{n}"] for an integer [n]. *)
Definition str (n : Z) : string := pretty n.

(** [{str(age): f"{age}" for age in ages}]: keys are entered in order, a
    later entry replacing an earlier one under the same key. *)
Definition marks_of (ages : list Z) : gmap string string :=
  foldl (λ m age, <[str age := str age]> m) ∅ ages.

Record RangeSlider := {
  min : option Z;
  max : option Z;
  value : list (option Z);
  marks : gmap string string;
  step : Z
}.

(** [dcc.RangeSlider(id='age-range', ...)], lines 91-99. The arguments
    are evaluated in order; only the marks can raise. *)
Definition age_range (table : DataFrame) : exn + RangeSlider :=
  let lo := series_min (col Age table) in
  let hi := series_max (col Age table) in
  match int lo with
  | inl e => inl e
  | inr first =>
      match int hi with
      | inl e => inl e
      | inr last =>
          inr {| min := lo; max := hi;
                 value := age_range_value table;
                 marks := marks_of (range first (last + 1) 10);
                 step := 1 |}
      end
  end.

Record DropdownOption := {
  label : string;
  opt_value : string
}.

Record Dropdown := {
  options : list DropdownOption;
  selection : list string;
  multi : bool
}.

(** [dcc.Dropdown(id='location-filter', ...)], lines 103-109. *)
Definition location_filter (table : DataFrame) : Dropdown :=
  {| options := (λ loc, {| label := loc; opt_value := loc |})
                <$> unique (col Location table);
     selection := location_filter_value table;
     multi := true |}.

End Layout.

(** * Properties *)

(** ** The filter stage *)

Section filter_stage.
Implicit Types (df : DataFrame) (p : nat * CustomerRecord).
Implicit Types (locations : list string).

(** The mask-and-index of the source is the filter by [selected]. *)
Lemma filtered_df_filter df age_min age_max locations :
  filtered_df df age_min age_max locations
  = filter (λ p, selected age_min age_max locations p.2) df.
Proof.
  unfold filtered_df, series_and, series_ge, series_le, isin, col.
  induction df as [|[i r] df IH]; [done|].
  rewrite filter_cons. cbn [fmap list_fmap zip_with getitem_mask snd].
  fold (@fmap list _).
  destruct (decide (selected age_min age_max locations r)) as [Hs|Hs].
  - destruct Hs as (H1 & H2 & H3).
    rewrite !bool_decide_eq_true_2 by done. cbn. by rewrite <- IH.
  - rewrite <- IH.
    destruct (bool_decide (age_min ≤ Age r)) eqn:E1;
      destruct (bool_decide (Age r ≤ age_max)) eqn:E2;
      destruct (bool_decide (Location r ∈ locations)) eqn:E3; cbn; try done.
    exfalso. apply Hs.
    apply bool_decide_eq_true in E1, E2, E3. by repeat split.
Qed.

Lemma elem_of_filtered_df df age_min age_max locations p :
  p ∈ filtered_df df age_min age_max locations
  ↔ p ∈ df ∧ selected age_min age_max locations p.2.
Proof. rewrite filtered_df_filter, list_elem_of_filter. tauto. Qed.

Lemma filtered_df_sublist df age_min age_max locations :
  filtered_df df age_min age_max locations `sublist_of` df.
Proof. rewrite filtered_df_filter. apply sublist_filter. Qed.

Lemma filter_all {A} (P : A → Prop) `{!∀ x, Decision (P x)} (l : list A) :
  (∀ x, x ∈ l → P x) → filter P l = l.
Proof.
  induction l as [|x l IH]; intros Hall; [done|].
  rewrite filter_cons_True by (apply Hall; left).
  f_equal. apply IH. intros y Hy. apply Hall. by right.
Qed.

End filter_stage.

(** ** Index labels *)

Section index.
Implicit Types (df : DataFrame) (rows : list CustomerRecord).

Lemma read_csv_lookup rows i p :
  read_csv rows !! i = Some p ↔ p.1 = i ∧ rows !! i = Some p.2.
Proof.
  unfold read_csv. rewrite list_lookup_imap.
  destruct (rows !! i) as [r|]; destruct p as [j s]; cbn; naive_solver.
Qed.

Lemma read_csv_labels rows :
  (λ p, p.1) <$> read_csv rows = seq 0 (length rows).
Proof.
  unfold read_csv. rewrite fmap_imap.
  rewrite (imap_ext _ (λ j _, id j)) by done.
  rewrite imap_seq_0. apply list_fmap_id.
Qed.

Lemma seq_StronglySorted n m : StronglySorted lt (seq n m).
Proof.
  revert n. induction m as [|m IH]; intros n; cbn; constructor; [done|].
  apply Forall_forall. intros x Hx%elem_of_seq. lia.
Qed.

Lemma StronglySorted_sublist {A} (R : relation A) (l k : list A) :
  l `sublist_of` k → StronglySorted R k → StronglySorted R l.
Proof.
  induction 1 as [|x l k Hs IH|x l k Hs IH]; intros Hk; [done|..].
  - apply StronglySorted_inv in Hk as [Hk Hx]. constructor; [by apply IH|].
    eapply Forall_forall. intros y Hy. eapply Forall_forall in Hx; [done|].
    by eapply sublist_subseteq.
  - apply StronglySorted_inv in Hk as [Hk Hx]. by apply IH.
Qed.

Lemma StronglySorted_lookup_lt {A} (R : relation A) (l : list A) i j a b :
  StronglySorted R l → (i < j)%nat →
  l !! i = Some a → l !! j = Some b → R a b.
Proof.
  intros Hl. revert i j. induction Hl as [|x l Hl IH Hx]; intros i j Hij Hi Hj.
  - by rewrite lookup_nil in Hi.
  - destruct j as [|j]; [lia|]. destruct i as [|i]; cbn in *.
    + simplify_eq. eapply Forall_forall in Hx; [done|].
      by eapply list_elem_of_lookup_2.
    + eapply (IH i j); [lia|done..].
Qed.

(** The labels of a selection from a freshly read table increase along
    the selection, and each label is the row's position in the table. *)
Lemma sublist_read_csv_order rows (out : DataFrame) i j a b :
  out `sublist_of` read_csv rows → (i < j)%nat →
  out !! i = Some a → out !! j = Some b →
  (a.1 < b.1)%nat
  ∧ read_csv rows !! a.1 = Some a ∧ read_csv rows !! b.1 = Some b.
Proof.
  intros Hs Hij Hi Hj. split.
  - assert (StronglySorted lt ((λ p, p.1) <$> out)) as Hsorted.
    { eapply StronglySorted_sublist; [by apply fmap_sublist|].
      rewrite read_csv_labels. apply seq_StronglySorted. }
    eapply (StronglySorted_lookup_lt _ _ i j); [done..| |];
      by rewrite list_lookup_fmap, ?Hi, ?Hj.
  - assert (∀ p, p ∈ out → read_csv rows !! p.1 = Some p) as Hin.
    { intros p Hp. eapply sublist_subseteq in Hp; [|done].
      apply list_elem_of_lookup in Hp as [k Hk].
      pose proof Hk as Hk'. apply read_csv_lookup in Hk' as [-> _]. done. }
    split; apply Hin; by eapply list_elem_of_lookup_2.
Qed.

End index.

(** ** Series helpers *)

Section series.

Lemma series_min_le (s : list Z) (m x : Z) :
  series_min s = Some m → x ∈ s → m ≤ x.
Proof.
  destruct s as [|y s]; [done|]. cbn. intros [= <-].
  revert x. induction s as [|z s IH]; intros x Hx; cbn.
  - apply list_elem_of_singleton in Hx as ->. lia.
  - apply elem_of_cons in Hx as [->|Hx].
    + specialize (IH y ltac:(left)). lia.
    + apply elem_of_cons in Hx as [->|Hx]; [lia|].
      specialize (IH x ltac:(by right)). lia.
Qed.

Lemma series_max_ge (s : list Z) (m x : Z) :
  series_max s = Some m → x ∈ s → x ≤ m.
Proof.
  destruct s as [|y s]; [done|]. cbn. intros [= <-].
  revert x. induction s as [|z s IH]; intros x Hx; cbn.
  - apply list_elem_of_singleton in Hx as ->. lia.
  - apply elem_of_cons in Hx as [->|Hx].
    + specialize (IH y ltac:(left)). lia.
    + apply elem_of_cons in Hx as [->|Hx]; [lia|].
      specialize (IH x ltac:(by right)). lia.
Qed.

Lemma elem_of_unique (s : list string) (x : string) :
  x ∈ unique s ↔ x ∈ s.
Proof.
  induction s as [|y s IH]; cbn; [done|].
  rewrite !elem_of_cons, list_elem_of_filter, IH.
  destruct (decide (x = y)); naive_solver.
Qed.

Lemma NoDup_unique (s : list string) : NoDup (unique s).
Proof.
  induction s as [|y s IH]; cbn; constructor.
  - rewrite list_elem_of_filter. naive_solver.
  - by apply NoDup_filter.
Qed.

End series.

(** ** The callback and module state *)

Section callback.
Implicit Types (g : Globals.t) (age_range : list Z).

(** Running the callback leaves the module state as it was. *)
Lemma update_graphs_state age_range locations g :
  (update_graphs age_range locations g).2 = g.
Proof.
  unfold update_graphs, py_bind, load_global, getitem, py_ret, py_raise.
  destruct (age_range !! 0%nat); [|done].
  by destruct (age_range !! 1%nat).
Qed.

(** With both ends of the range given, the callback returns the four
    figures over the filtered frame and its melted aggregate. *)
Lemma update_graphs_ok age_min age_max locations g :
  (update_graphs [age_min; age_max] locations g).1
  = let subset := filtered_df (Globals.df g) age_min age_max locations in
    let melted := melted_location_df (grouped_location_df subset) in
    Ok (satisfaction_dist_fig subset, age_satisfaction_fig subset,
        location_analysis_fig melted, products_analysis_fig subset).
Proof. done. Qed.

End callback.

(** ** Claims about the filter stage *)

(** C1. Soundness and completeness of the filter: a labelled row is in
    the filtered frame exactly when it is a row of the table whose age
    lies in [age_min, age_max] and whose location is one of [locations].
    This holds for every pair of bounds, in particular when
    [age_min ≤ age_max]. *)
Theorem filter_sound_complete (df : DataFrame) (age_min age_max : Z)
    (locations : list string) (p : nat * CustomerRecord) :
  p ∈ filtered_df df age_min age_max locations
  ↔ p ∈ df ∧ age_min ≤ Age p.2 ≤ age_max ∧ Location p.2 ∈ locations.
Proof. rewrite elem_of_filtered_df. unfold selected. tauto. Qed.

(** C2. The filter is stable and has no side effect: the filtered frame
    is the sequence of matching rows, a subsequence of the table; in a
    table as [read_csv] gives it, two rows of the output stand in the
    order of their positions in the table, which their labels record;
    and the callback that runs the filter leaves the module state
    unchanged. *)
Theorem filter_stable (df : DataFrame) (age_min age_max : Z)
    (locations : list string) :
  let out := filtered_df df age_min age_max locations in
  out = filter (λ p, selected age_min age_max locations p.2) df
  ∧ out `sublist_of` df
  ∧ (∀ rows i j a b,
       df = read_csv rows → (i < j)%nat →
       out !! i = Some a → out !! j = Some b →
       (a.1 < b.1)%nat ∧ df !! a.1 = Some a ∧ df !! b.1 = Some b)
  ∧ (∀ g, (update_graphs [age_min; age_max] locations g).2 = g).
Proof.
  cbv zeta. split_and!.
  - apply filtered_df_filter.
  - apply filtered_df_sublist.
  - intros rows i j a b -> Hij Hi Hj.
    eapply sublist_read_csv_order; eauto using filtered_df_sublist.
  - intros g. apply update_graphs_state.
Qed.

(** C3. The full-range filter is the identity: with [age_min] the least
    age of the table, [age_max] the greatest and [locations] the distinct
    locations of the table (the initial values of the two controls), the
    filtered frame is the table itself, labels included. *)
Theorem full_range_filter_identity (df : DataFrame) (age_min age_max : Z) :
  age_range_value df = [Some age_min; Some age_max] →
  filtered_df df age_min age_max (location_filter_value df) = df.
Proof.
  unfold age_range_value, location_filter_value. intros [= Hmin Hmax].
  rewrite filtered_df_filter. apply filter_all.
  intros p Hp. unfold selected, col in *. split_and!.
  - eapply series_min_le; [done|]. by apply (list_elem_of_fmap_2 (λ p, Age p.2)).
  - eapply series_max_ge; [done|]. by apply (list_elem_of_fmap_2 (λ p, Age p.2)).
  - apply elem_of_unique. by apply (list_elem_of_fmap_2 (λ p, Location p.2)).
Qed.

Lemma full_range_filter_identity_witness :
  age_range_value sample = [Some 25; Some 40]
  ∧ filtered_df sample 25 40 (location_filter_value sample) = sample.
Proof.
  split; [reflexivity|]. apply (full_range_filter_identity sample 25 40).
  reflexivity.
Defined.

(** C7. A degenerate range keeps exact-age matches only: with
    [age_min = age_max = a] the filtered frame is the sequence of the
    rows whose age is [a] and whose location is one of [locations]. *)
Theorem degenerate_range_exact_age (df : DataFrame) (a : Z)
    (locations : list string) :
  filtered_df df a a locations
  = filter (λ p, Age p.2 = a ∧ Location p.2 ∈ locations) df
  ∧ ∀ p, p ∈ filtered_df df a a locations
         ↔ p ∈ df ∧ Age p.2 = a ∧ Location p.2 ∈ locations.
Proof.
  assert (filtered_df df a a locations
          = filter (λ p, Age p.2 = a ∧ Location p.2 ∈ locations) df) as Heq.
  { rewrite filtered_df_filter. apply list_filter_iff.
    intros p. unfold selected. split; [intros (?&?&?)|intros [? ?]];
      split_and!; auto; lia. }
  split; [done|]. intros p. rewrite Heq, list_elem_of_filter. tauto.
Qed.

(** C10. The filter is monotone in both controls: widening the age range
    or the set of locations never drops a row; the narrower selection is
    a subsequence of the wider one. *)
Theorem filter_monotone (df : DataFrame) (age_min1 age_max1 age_min2 age_max2 : Z)
    (locations1 locations2 : list string) :
  locations1 ⊆ locations2 → age_min2 ≤ age_min1 → age_max1 ≤ age_max2 →
  (∀ p, p ∈ filtered_df df age_min1 age_max1 locations1
        → p ∈ filtered_df df age_min2 age_max2 locations2)
  ∧ filtered_df df age_min1 age_max1 locations1
    `sublist_of` filtered_df df age_min2 age_max2 locations2.
Proof.
  intros Hloc Hlo Hhi.
  assert (∀ r, selected age_min1 age_max1 locations1 r
               → selected age_min2 age_max2 locations2 r) as Himp.
  { intros r (?&?&?). unfold selected. split_and!; [lia..|by apply Hloc]. }
  split.
  - intros p. rewrite !elem_of_filtered_df. naive_solver.
  - rewrite !filtered_df_filter.
    induction df as [|p df IH]; [done|].
    rewrite !filter_cons.
    destruct (decide (selected age_min1 age_max1 locations1 p.2)) as [H1|H1].
    + rewrite decide_True by auto. by constructor.
    + destruct (decide (selected age_min2 age_max2 locations2 p.2));
        [by constructor|done].
Qed.

Lemma filter_monotone_witness :
  (∀ p, p ∈ filtered_df sample 26 35 ["LA"]
        → p ∈ filtered_df sample 20 45 ["NY"; "LA"])
  ∧ filtered_df sample 26 35 ["LA"]
    `sublist_of` filtered_df sample 20 45 ["NY"; "LA"].
Proof.
  apply (filter_monotone sample 26 35 20 45 ["LA"] ["NY"; "LA"]).
  - intros x Hx. apply list_elem_of_singleton in Hx as ->.
    right. left.
  - lia.
  - lia.
Defined.

(** ** The aggregation stage *)

Section aggregation.
Implicit Types (subset : DataFrame) (l : string).

Lemma group_keys_Permutation subset :
  group_keys subset ≡ₚ unique (col Location subset).
Proof. apply merge_sort_Permutation. Qed.

(** The group keys come out in ascending order, as pandas sorts them. *)
Lemma group_keys_Sorted subset : Sorted String.le (group_keys subset).
Proof. apply (Sorted_merge_sort String.le). Qed.

Lemma NoDup_group_keys subset : NoDup (group_keys subset).
Proof. rewrite group_keys_Permutation. apply NoDup_unique. Qed.

Lemma elem_of_group_keys subset l :
  l ∈ group_keys subset ↔ ∃ p, p ∈ subset ∧ Location p.2 = l.
Proof.
  rewrite group_keys_Permutation, elem_of_unique. unfold col.
  rewrite list_elem_of_fmap. naive_solver.
Qed.

Lemma get_group_nonempty subset l :
  l ∈ group_keys subset → get_group subset l ≠ [].
Proof.
  intros (p & Hp & Hl)%elem_of_group_keys Hnil.
  assert (p ∈ get_group subset l) as Hin.
  { unfold get_group. by apply list_elem_of_filter. }
  rewrite Hnil in Hin. by apply elem_of_nil in Hin.
Qed.

Lemma filter_none {A} (P : A → Prop) `{!∀ x, Decision (P x)} (xs : list A) :
  (∀ x, x ∈ xs → ¬ P x) → filter P xs = [].
Proof.
  induction xs as [|x xs IH]; intros Hnone; [done|].
  rewrite filter_cons_False by (apply Hnone; left).
  apply IH. intros y Hy. apply Hnone. by right.
Qed.

Lemma filter_eq_NoDup (ks : list string) l :
  NoDup ks → l ∈ ks → filter (λ k, k = l) ks = [l].
Proof.
  induction 1 as [|k ks Hk Hks IH]; intros Hl; [by apply elem_of_nil in Hl|].
  rewrite filter_cons. destruct (decide (k = l)) as [->|Hne].
  - f_equal. apply filter_none. by intros k Hk' ->.
  - apply IH. apply elem_of_cons in Hl as [->|]; done.
Qed.

Lemma filter_fmap_comm {A B} (f : A → B) (P : B → Prop)
    `{!∀ y, Decision (P y)} (xs : list A) :
  filter P (f <$> xs) = f <$> filter (λ x, P (f x)) xs.
Proof.
  induction xs as [|x xs IH]; [done|].
  rewrite fmap_cons, !filter_cons.
  destruct (decide (P (f x))); rewrite IH; by rewrite ?fmap_cons.
Qed.

Lemma zip_fmap_diag {A B C} (f : A → B) (h : A → C) (xs : list A) :
  zip (f <$> xs) (h <$> xs) = (λ x, (f x, h x)) <$> xs.
Proof. induction xs as [|x xs IH]; [done|]. cbn. by f_equal. Qed.

Lemma zip_with_fmap_diag {A B C} (h : A → B → C) (f : A → B) (xs : list A) :
  zip_with h xs (f <$> xs) = (λ x, h x (f x)) <$> xs.
Proof. induction xs as [|x xs IH]; [done|]. cbn. by f_equal. Qed.

(** The accumulators of one group after its values: the compensated sum
    and the count. *)
Lemma mean_acc_fold (a : mean_acc) (values : list f64) :
  sumx (foldl mean_acc_add a values)
  = kahan_sum (sumx a) (compensation a) values
  ∧ nobs (foldl mean_acc_add a values) = nobs a + Z.of_nat (length values).
Proof.
  revert a. induction values as [|val values IH]; intros a.
  - cbn. split; [done|lia].
  - cbn [foldl kahan_sum length]. destruct (IH (mean_acc_add a val)) as [-> ->].
    split; [done|]. cbn [mean_acc_add nobs]. lia.
Qed.

(** In the single pass over the rows, the accumulators of a key see
    exactly the values of the rows labelled with that key, in row order. *)
Lemma group_pass_lookup (rows : list (string * f64))
    (accs : gmap string mean_acc) (k : string) :
  default mean_acc_zero
    (foldl (λ accs lv,
              <[lv.1 := mean_acc_add (default mean_acc_zero (accs !! lv.1))
                                     lv.2]> accs)
           accs rows !! k)
  = foldl mean_acc_add (default mean_acc_zero (accs !! k))
          ((filter (λ lv, lv.1 = k) rows).*2).
Proof.
  revert accs. induction rows as [|[lab val] rows IH]; intros accs; [done|].
  cbn [foldl]. rewrite IH, filter_cons. cbn [fst snd].
  destruct (decide (lab = k)) as [->|Hne].
  - by rewrite lookup_insert_eq.
  - by rewrite lookup_insert_ne.
Qed.

Lemma group_mean_groups (c : CustomerRecord → Q) subset (keys : list string) :
  group_mean keys (col Location subset) (f64_of_Q <$> col c subset)
  = (λ k, f64_div
            (kahan_sum f64_zero f64_zero (f64_of_Q <$> col c (get_group subset k)))
            (f64_of_Z (Z.of_nat (length (col c (get_group subset k))))))
    <$> keys.
Proof.
  unfold group_mean, col. rewrite <- list_fmap_compose, zip_fmap_diag.
  apply list_fmap_ext. intros _ k _. cbv zeta.
  rewrite group_pass_lookup, lookup_empty. cbn [default from_option].
  rewrite filter_fmap_comm, <- !list_fmap_compose. cbn [fst].
  fold (get_group subset k).
  destruct (mean_acc_fold mean_acc_zero
              ((snd ∘ (λ x, (Location x.2, (f64_of_Q ∘ (λ p, c p.2)) x)))
               <$> get_group subset k)) as [-> ->].
  rewrite !length_fmap. reflexivity.
Qed.

(** The single pass agrees with taking each group apart: every key
    carries the float64 means of the two score columns over the rows of
    its group. *)
Lemma grouped_location_df_groups subset :
  grouped_location_df subset
  = (λ k, {| grp_Location := k;
             Avg_Satisfaction_Score :=
               series_mean (col Satisfaction_Score (get_group subset k));
             Avg_Feedback_Score :=
               series_mean (col Feedback_Score (get_group subset k)) |})
    <$> group_keys subset.
Proof.
  unfold grouped_location_df. cbv zeta.
  rewrite !group_mean_groups, zip_fmap_diag, zip_with_fmap_diag.
  apply list_fmap_ext. intros _ k _. reflexivity.
Qed.

Lemma grouped_location_df_keys subset :
  grp_Location <$> grouped_location_df subset = group_keys subset.
Proof.
  rewrite grouped_location_df_groups, <- list_fmap_compose.
  etrans; [|apply list_fmap_id]. by apply list_fmap_ext.
Qed.

End aggregation.

Section melt.

Lemma melted_location_df_Metric (grouped : list LocationAggregate) m :
  m ∈ melted_location_df grouped →
  Metric m = "Avg_Satisfaction_Score" ∨ Metric m = "Avg_Feedback_Score".
Proof.
  unfold melted_location_df. rewrite elem_of_app, !list_elem_of_fmap.
  intros [(e & -> & _)|(e & -> & _)]; auto.
Qed.

Lemma melted_location_df_Location (grouped : list LocationAggregate) m :
  m ∈ melted_location_df grouped →
  mlt_Location m ∈ grp_Location <$> grouped.
Proof.
  unfold melted_location_df. rewrite elem_of_app, !list_elem_of_fmap.
  intros [(e & -> & He)|(e & -> & He)]; eauto.
Qed.

End melt.

(** ** Claims about the aggregation stage *)

(** C4, as the code has it. [grouped_location_df] has exactly one entry
    per distinct location of the subset: its keys are pairwise distinct
    and are the locations that occur in the subset, and a location with
    no row in the subset has no entry. The two values of an entry are the
    float64 means of the satisfaction scores and of the feedback scores
    of exactly the rows of that location, taken in row order: their
    compensated float64 sum over their count. This holds for every
    subset, the empty one included, where there is no entry. *)
Theorem aggregate_by_location_means (subset : DataFrame) :
  let agg := grouped_location_df subset in
  NoDup (grp_Location <$> agg)
  ∧ (∀ l, l ∈ grp_Location <$> agg ↔ ∃ p, p ∈ subset ∧ Location p.2 = l)
  ∧ (∀ l, (∀ p, p ∈ subset → Location p.2 ≠ l) → l ∉ grp_Location <$> agg)
  ∧ (∀ e, e ∈ agg →
       let rows := filter (λ p, Location p.2 = grp_Location e) subset in
       rows ≠ []
       ∧ Avg_Satisfaction_Score e
         = series_mean ((λ p, Satisfaction_Score p.2) <$> rows)
       ∧ Avg_Feedback_Score e
         = series_mean ((λ p, Feedback_Score p.2) <$> rows)).
Proof.
  cbv zeta. rewrite grouped_location_df_keys. split_and!.
  - apply NoDup_group_keys.
  - apply elem_of_group_keys.
  - intros l Hnone (p & Hp & Hl)%elem_of_group_keys. by apply (Hnone p).
  - intros e He. rewrite grouped_location_df_groups in He.
    apply list_elem_of_fmap in He as (k & -> & Hk). cbn.
    split; [by apply (get_group_nonempty subset k)|]. done.
Qed.

(** C4, as the spec words it, fails: the mean of the scores 1, 2 and 2 is
    the float64 nearest to 5/3, which is not 5/3. *)
Lemma arithmetic_mean_counterexample :
  ¬ (∀ e, e ∈ grouped_location_df thirds →
       ∃ sat,
         Avg_Satisfaction_Score e = Some sat
         ∧ (sat == arithmetic_mean
                     ((λ p, Satisfaction_Score p.2)
                      <$> filter (λ p, Location p.2 = grp_Location e) thirds))%Q).
Proof.
  intros Hclaim.
  destruct (Hclaim {| grp_Location := "NY";
                      Avg_Satisfaction_Score :=
                        Some (7505999378950827 # 4503599627370496);
                      Avg_Feedback_Score := Some 3%Q |})
    as (sat & Hsat & Hmean).
  - apply list_elem_of_lookup_2 with 0%nat. vm_compute. reflexivity.
  - cbn in Hsat. injection Hsat as <-. vm_compute in Hmean. discriminate.
Qed.

(** The two numbers apart: 7505999378950827 / 2^52 is what float64 holds
    for 1.6666666666666667. *)
Example thirds_means :
  grouped_location_df thirds
  = [ {| grp_Location := "NY";
         Avg_Satisfaction_Score := Some (7505999378950827 # 4503599627370496);
         Avg_Feedback_Score := Some 3%Q |} ]
  ∧ (arithmetic_mean (col Satisfaction_Score thirds) == 5 # 3)%Q.
Proof. split; vm_compute; reflexivity. Qed.

(** Two more means in float64: three scores of 0.1 (the float64
    3602879701896397 / 2^55) average to 0.10000000000000002, above each
    of them, and two scores of 2^53 + 1 average to 2^53, below both. *)
Example series_mean_tenths :
  series_mean [3602879701896397 # 36028797018963968;
               3602879701896397 # 36028797018963968;
               3602879701896397 # 36028797018963968]
  = Some (7205759403792795 # 72057594037927936).
Proof. vm_compute. reflexivity. Qed.

Example series_mean_large :
  series_mean [9007199254740993 # 1; 9007199254740993 # 1]
  = Some (9007199254740992 # 1).
Proof. vm_compute. reflexivity. Qed.

(** C5, as the code has it. The melted frame holds, for each location of
    the subset, exactly two rows: one with [Metric] equal to the column
    name "Avg_Satisfaction_Score" carrying that location's satisfaction
    mean and one with [Metric] equal to "Avg_Feedback_Score" carrying its
    feedback mean; it holds no row for any other location, so it has
    twice as many rows as the subset has distinct locations. *)
Theorem melted_two_records_per_location (subset : DataFrame) :
  let melted := melted_location_df (grouped_location_df subset) in
  (∀ m, m ∈ melted → ∃ p, p ∈ subset ∧ Location p.2 = mlt_Location m)
  ∧ length melted = (2 * length (unique (col Location subset)))%nat
  ∧ ∀ l, (∃ p, p ∈ subset ∧ Location p.2 = l) →
      filter (λ m, mlt_Location m = l) melted
      = [ {| mlt_Location := l;
             Metric := "Avg_Satisfaction_Score";
             Average_Score :=
               series_mean (col Satisfaction_Score (get_group subset l)) |};
          {| mlt_Location := l;
             Metric := "Avg_Feedback_Score";
             Average_Score :=
               series_mean (col Feedback_Score (get_group subset l)) |} ].
Proof.
  cbv zeta. split_and!.
  - intros m Hm%melted_location_df_Location.
    rewrite grouped_location_df_keys in Hm. by apply elem_of_group_keys.
  - rewrite grouped_location_df_groups. unfold melted_location_df.
    rewrite length_app, !length_fmap, group_keys_Permutation. lia.
  - intros l Hl%elem_of_group_keys.
    rewrite grouped_location_df_groups. unfold melted_location_df.
    rewrite filter_app, <- !list_fmap_compose, !filter_fmap_comm. cbn.
    by rewrite (filter_eq_NoDup _ _ (NoDup_group_keys subset) Hl).
Qed.

(** C5, as the spec words it, fails: no row of the melted frame is tagged
    "avg_satisfaction". *)
Lemma melted_metric_tag_counterexample :
  ¬ (∀ l, (∃ p, p ∈ sample ∧ Location p.2 = l) →
       ∃ m, m ∈ melted_location_df (grouped_location_df sample)
            ∧ mlt_Location m = l ∧ Metric m = "avg_satisfaction").
Proof.
  intros Hclaim. destruct (Hclaim "NY") as (m & Hm & _ & Htag).
  - exists (0%nat, row 25 "NY" 4 3). split; [left|done].
  - apply melted_location_df_Metric in Hm as [Hm|Hm];
      rewrite Hm in Htag; discriminate.
Qed.

(** C6. An empty selection of locations gives an empty subset whatever the
    age range and the table; the aggregate and the melted frame of the
    empty subset are empty; and the callback returns its four figures,
    each over an empty frame, without raising. *)
Theorem empty_locations_empty_pipeline (g : Globals.t) (age_min age_max : Z) :
  filtered_df (Globals.df g) age_min age_max [] = []
  ∧ grouped_location_df [] = []
  ∧ melted_location_df [] = []
  ∧ update_graphs [age_min; age_max] [] g
    = (Ok (satisfaction_dist_fig [], age_satisfaction_fig [],
           location_analysis_fig [], products_analysis_fig []), g).
Proof.
  assert (filtered_df (Globals.df g) age_min age_max [] = []) as Hempty.
  { rewrite filtered_df_filter. apply filter_none.
    intros p _ (_ & _ & Hin). by apply elem_of_nil in Hin. }
  split_and!; [done..|].
  apply injective_projections.
  - by rewrite update_graphs_ok, Hempty.
  - apply update_graphs_state.
Qed.

(** ** Claims about the callback as a whole *)

(** C8. The callback leaves the source table unchanged: whatever the
    inputs, and whether it returns or raises, the module state after the
    call is the module state before it, so the table is the same and the
    filtered, aggregated and melted frames are new values. *)
Theorem update_graphs_preserves_table (age_range : list Z)
    (locations : list string) (g : Globals.t) :
  (update_graphs age_range locations g).2 = g
  ∧ Globals.df (update_graphs age_range locations g).2 = Globals.df g.
Proof.
  pose proof (update_graphs_state age_range locations g) as Hst.
  split; [done|]. by rewrite Hst.
Qed.

(** C9. The callback is deterministic: its result depends on the inputs
    and on the table only. Two module states with the same table give the
    same result, and a second run after a first gives the result of the
    first. *)
Theorem update_graphs_deterministic (age_range : list Z)
    (locations : list string) (g1 g2 : Globals.t) :
  Globals.df g1 = Globals.df g2 →
  (update_graphs age_range locations g1).1
  = (update_graphs age_range locations g2).1
  ∧ (update_graphs age_range locations
       (update_graphs age_range locations g1).2).1
    = (update_graphs age_range locations g1).1.
Proof.
  intros Hdf. split; [|by rewrite update_graphs_state].
  unfold update_graphs, py_bind, load_global, getitem, py_ret, py_raise.
  rewrite Hdf.
  destruct (age_range !! 0%nat); [|done].
  by destruct (age_range !! 1%nat).
Qed.

Lemma update_graphs_deterministic_witness :
  let g1 := module_init [row 25 "NY" 4 3; row 40 "NY" 2 5; row 30 "LA" 5 4] in
  let g2 := {| Globals.df := sample;
               Globals.initial_grouped_df := [];
               Globals.initial_melted_df := [] |} in
  Globals.df g1 = Globals.df g2
  ∧ (update_graphs [20; 35] ["NY"; "LA"] g1).1
    = (update_graphs [20; 35] ["NY"; "LA"] g2).1
  ∧ (update_graphs [20; 35] ["NY"; "LA"]
       (update_graphs [20; 35] ["NY"; "LA"] g1).2).1
    = (update_graphs [20; 35] ["NY"; "LA"] g1).1.
Proof.
  cbv zeta. split; [reflexivity|].
  apply (update_graphs_deterministic [20; 35] ["NY"; "LA"]). reflexivity.
Defined.

(** ** The worked example of the specification

    Rows (25, NY, 4), (40, NY, 2), (30, LA, 5); ages 20 to 35 and both
    locations keep the first and the third row, with their labels. *)

Example sample_filtered :
  filtered_df sample 20 35 ["NY"; "LA"]
  = [(0%nat, row 25 "NY" 4 3); (2%nat, row 30 "LA" 5 4)].
Proof. reflexivity. Qed.

Example sample_grouped :
  grouped_location_df (filtered_df sample 20 35 ["NY"; "LA"])
  = [ {| grp_Location := "LA"; Avg_Satisfaction_Score := Some 5%Q;
         Avg_Feedback_Score := Some 4%Q |};
      {| grp_Location := "NY"; Avg_Satisfaction_Score := Some 4%Q;
         Avg_Feedback_Score := Some 3%Q |} ].
Proof. reflexivity. Qed.

Example sample_grouped_all :
  grouped_location_df sample
  = [ {| grp_Location := "LA"; Avg_Satisfaction_Score := Some 5%Q;
         Avg_Feedback_Score := Some 4%Q |};
      {| grp_Location := "NY"; Avg_Satisfaction_Score := Some 3%Q;
         Avg_Feedback_Score := Some 4%Q |} ].
Proof. reflexivity. Qed.

Example sample_short_range :
  (update_graphs [20] ["NY"] (module_init [])).1 = Raise IndexError.
Proof. reflexivity. Qed.

(** * Further properties of the code *)

(** ** The filter stage, lines 162-166 *)

(** The filtered frame is empty exactly when no row of the table has its
    age in the range and its location among the selected ones. *)
Theorem filtered_df_empty_iff (df : DataFrame) (age_min age_max : Z)
    (locations : list string) :
  filtered_df df age_min age_max locations = []
  ↔ ∀ p, p ∈ df →
        ¬ (age_min ≤ Age p.2 ≤ age_max ∧ Location p.2 ∈ locations).
Proof.
  split.
  - intros Hnil p Hp [Hage Hloc].
    assert (p ∈ filtered_df df age_min age_max locations) as Hin.
    { apply elem_of_filtered_df. unfold selected. tauto. }
    rewrite Hnil in Hin. by apply elem_of_nil in Hin.
  - intros Hnone. rewrite filtered_df_filter. apply filter_none.
    intros p Hp (? & ? & ?). apply (Hnone p Hp). tauto.
Qed.

(** A range whose lower end lies above its upper end selects nothing,
    and does so without an error. *)
Theorem inverted_range_empty (df : DataFrame) (age_min age_max : Z)
    (locations : list string) :
  age_max < age_min →
  filtered_df df age_min age_max locations = [].
Proof.
  intros Hinv. apply filtered_df_empty_iff. intros p _ [Hage _]. lia.
Qed.

Lemma inverted_range_empty_witness :
  40 < 41 ∧ filtered_df sample 41 40 ["NY"; "LA"] = [].
Proof.
  split; [lia|]. apply (inverted_range_empty sample 41 40). lia.
Defined.

(** Filtering a filtered frame is filtering the table once, with the
    intersection of the two age ranges and of the two selections; in
    particular the filter is idempotent. *)
Theorem filtered_df_compose (df : DataFrame) (a1 b1 a2 b2 : Z)
    (L1 L2 : list string) :
  filtered_df (filtered_df df a1 b1 L1) a2 b2 L2
  = filtered_df df (Z.max a1 a2) (Z.min b1 b2) (filter (λ l, l ∈ L2) L1)
  ∧ filtered_df (filtered_df df a1 b1 L1) a1 b1 L1 = filtered_df df a1 b1 L1.
Proof.
  rewrite !filtered_df_filter, !list_filter_filter. split.
  - apply list_filter_iff. intros p. unfold selected.
    rewrite list_elem_of_filter. split.
    + intros [(?&?&?) (?&?&?)]. split_and!; [lia..|done|done].
    + intros (?&?&?&?). split_and!; [lia..|done|lia|lia|done].
  - apply list_filter_iff. intros p. tauto.
Qed.

(** Only the set of selected locations matters: two selections with the
    same members, in any order and with any repetitions, give the same
    filtered frame. *)
Theorem filtered_df_locations_set (df : DataFrame) (age_min age_max : Z)
    (L1 L2 : list string) :
  (∀ l, l ∈ L1 ↔ l ∈ L2) →
  filtered_df df age_min age_max L1 = filtered_df df age_min age_max L2.
Proof.
  intros Hsame. rewrite !filtered_df_filter. apply list_filter_iff.
  intros p. unfold selected. by rewrite Hsame.
Qed.

Lemma filtered_df_locations_set_witness :
  (∀ l, l ∈ ["NY"; "LA"] ↔ l ∈ ["LA"; "NY"; "LA"])
  ∧ filtered_df sample 20 35 ["NY"; "LA"]
    = filtered_df sample 20 35 ["LA"; "NY"; "LA"].
Proof.
  assert (∀ l, l ∈ ["NY"; "LA"] ↔ l ∈ ["LA"; "NY"; "LA"]) as Hsame.
  { intros l. rewrite !elem_of_cons, !elem_of_nil. tauto. }
  split; [exact Hsame|].
  apply (filtered_df_locations_set sample 20 35 _ _ Hsame).
Defined.

(** In a table as [read_csv] gives it, the filtered frame keeps each
    selected row under the label it had: the label is the row's position
    in the file, and no label occurs twice. *)
Theorem filtered_df_labels (rows : list CustomerRecord) (age_min age_max : Z)
    (locations : list string) :
  let out := filtered_df (read_csv rows) age_min age_max locations in
  NoDup (out.*1)
  ∧ ∀ i r, (i, r) ∈ out
           ↔ rows !! i = Some r
             ∧ age_min ≤ Age r ≤ age_max ∧ Location r ∈ locations.
Proof.
  cbv zeta. split.
  - eapply sublist_NoDup;
      [|apply fmap_sublist, filtered_df_sublist].
    rewrite read_csv_labels. apply NoDup_seq.
  - intros i r. rewrite elem_of_filtered_df, list_elem_of_lookup.
    unfold selected. cbn. split.
    + intros [[k Hk] ?]. apply read_csv_lookup in Hk as [? ?].
      cbn in *. subst. tauto.
    + intros [Hr ?]. split; [|tauto]. exists i.
      by apply read_csv_lookup.
Qed.

(** ** Indexing the age range, lines 163-164 *)

(** The callback raises [IndexError] exactly when the age range has fewer
    than two entries; entries after the second are never read. *)
Theorem update_graphs_IndexError_iff (age_range : list Z)
    (locations : list string) (g : Globals.t) :
  ((update_graphs age_range locations g).1 = Raise IndexError
   ↔ (length age_range < 2)%nat)
  ∧ ∀ a b rest, age_range = a :: b :: rest →
      update_graphs age_range locations g
      = update_graphs [a; b] locations g.
Proof.
  split.
  - destruct age_range as [|a [|b rest]]; cbn; split;
      try done; try lia.
  - by intros a b rest ->.
Qed.

(** ** The aggregation stage, lines 193-196 *)

Section order.

Lemma StronglySorted_strict {A} (R : relation A) (l : list A) :
  StronglySorted R l → NoDup l → StronglySorted (λ x y, R x y ∧ x ≠ y) l.
Proof.
  induction 1 as [|x l Hl IH Hx]; intros Hnd; [constructor|].
  apply NoDup_cons in Hnd as [Hnotin Hnd]. constructor; [by apply IH|].
  apply Forall_forall. intros y Hy. split.
  - eapply Forall_forall in Hx; done.
  - by intros ->.
Qed.

End order.

(** The entries of the aggregate come in strictly ascending order of
    location ([groupby] sorts its keys), whatever the order of the rows. *)
Theorem grouped_location_df_ascending (subset : DataFrame) :
  StronglySorted (λ x y, String.le x y ∧ x ≠ y)
    (grp_Location <$> grouped_location_df subset).
Proof.
  rewrite grouped_location_df_keys. apply StronglySorted_strict.
  - apply (StronglySorted_merge_sort String.le).
  - apply NoDup_group_keys.
Qed.

(** ** Filter and aggregation together, lines 162-196 *)

Section filter_then_group.
Implicit Types (df subset : DataFrame) (l : string).

Lemma get_group_filtered df a b (L : list string) l :
  l ∈ L →
  get_group (filtered_df df a b L) l = get_group (filtered_df df a b [l]) l.
Proof.
  intros Hl. unfold get_group.
  rewrite !filtered_df_filter, !list_filter_filter.
  apply list_filter_iff. intros p. unfold selected.
  rewrite list_elem_of_singleton. split.
  - intros [Hp ?]. split; [done|]. split_and!; [tauto..|done].
  - intros [Hp ?]. split; [done|]. split_and!; [tauto..|by rewrite Hp].
Qed.

Lemma NoDup_all_eq (ks : list string) l :
  NoDup ks → (∀ k, k ∈ ks → k = l) → l ∈ ks → ks = [l].
Proof.
  intros Hnd Hall Hl. destruct ks as [|k [|k' ks]].
  - by apply elem_of_nil in Hl.
  - by rewrite (Hall k) by left.
  - apply NoDup_cons in Hnd as [Hk _]. exfalso. apply Hk.
    rewrite (Hall k) by left. rewrite <- (Hall k') at 1 by (right; left).
    left.
Qed.

Lemma group_keys_single subset l :
  subset ≠ [] → (∀ p, p ∈ subset → Location p.2 = l) →
  group_keys subset = [l].
Proof.
  intros Hne Hall. apply NoDup_all_eq.
  - apply NoDup_group_keys.
  - intros k (p & Hp & <-)%elem_of_group_keys. by apply Hall.
  - apply elem_of_group_keys. destruct subset as [|p subset]; [done|].
    exists p. split; [left|apply Hall; left].
Qed.

End filter_then_group.

(** The bar chart shows a location exactly when it is selected and some
    row of the table with that location has its age in the range. *)
Theorem grouped_of_filtered_keys (df : DataFrame) (age_min age_max : Z)
    (locations : list string) (l : string) :
  l ∈ grp_Location <$>
      grouped_location_df (filtered_df df age_min age_max locations)
  ↔ l ∈ locations
    ∧ ∃ p, p ∈ df ∧ Location p.2 = l ∧ age_min ≤ Age p.2 ≤ age_max.
Proof.
  rewrite grouped_location_df_keys, elem_of_group_keys. split.
  - intros (p & (Hp & ? & ? & Hloc)%elem_of_filtered_df & <-).
    split; [done|]. exists p. tauto.
  - intros (Hl & p & Hp & <- & ?). exists p. split; [|done].
    apply elem_of_filtered_df. unfold selected. tauto.
Qed.

(** The entry of a selected location does not depend on which other
    locations are selected with it: it is the entry obtained when that
    location is selected alone. *)
Theorem grouped_entry_independent (df : DataFrame) (age_min age_max : Z)
    (locations : list string) (l : string) :
  l ∈ locations →
  filter (λ e, grp_Location e = l)
    (grouped_location_df (filtered_df df age_min age_max locations))
  = grouped_location_df (filtered_df df age_min age_max [l]).
Proof.
  intros Hl. rewrite !grouped_location_df_groups.
  rewrite filter_fmap_comm. cbn.
  assert (∀ p, p ∈ filtered_df df age_min age_max [l]
               → p ∈ filtered_df df age_min age_max locations
                 ∧ Location p.2 = l) as Hone.
  { intros p (Hp & ? & ? & Hp1%list_elem_of_singleton)%elem_of_filtered_df.
    split; [|done]. apply elem_of_filtered_df. unfold selected.
    rewrite Hp1. tauto. }
  pose proof (get_group_filtered df age_min age_max locations l Hl) as Hgrp.
  assert (∀ p, p ∈ filtered_df df age_min age_max locations
               → Location p.2 = l
               → p ∈ filtered_df df age_min age_max [l]) as Hsub.
  { intros p (Hp & ? & ? & ?)%elem_of_filtered_df Hpl.
    apply elem_of_filtered_df. unfold selected.
    rewrite list_elem_of_singleton. tauto. }
  remember (filtered_df df age_min age_max locations) as sub eqn:Esub.
  remember (filtered_df df age_min age_max [l]) as one eqn:Eone.
  clear Esub Eone.
  destruct (decide (l ∈ group_keys sub)) as [Hin|Hnotin].
  - rewrite (filter_eq_NoDup _ _ (NoDup_group_keys sub) Hin).
    apply elem_of_group_keys in Hin as (p & Hp & Hpl).
    pose proof (Hsub p Hp Hpl) as Hpone.
    rewrite (group_keys_single one l).
    + cbn. by rewrite Hgrp.
    + intros Hnil. rewrite Hnil in Hpone. by apply elem_of_nil in Hpone.
    + intros q Hq. by apply Hone.
  - rewrite filter_none by (by intros k Hk ->).
    destruct one as [|p one']; [done|]. exfalso. apply Hnotin.
    apply elem_of_group_keys. exists p. apply Hone. left.
Qed.

Lemma grouped_entry_independent_witness :
  "NY" ∈ ["LA"; "NY"]
  ∧ filter (λ e, grp_Location e = "NY")
      (grouped_location_df (filtered_df sample 20 45 ["LA"; "NY"]))
    = grouped_location_df (filtered_df sample 20 45 ["NY"]).
Proof.
  assert ("NY" ∈ ["LA"; "NY"]) as Hin by (right; left).
  split; [exact Hin|].
  apply (grouped_entry_independent sample 20 45 ["LA"; "NY"] "NY" Hin).
Defined.

(** ** The melted frame, lines 197-202 *)

Section melt_layout.

Lemma fmap_pair_inj {A B C} (f : A → B) (h : A → C) (xs ys : list A) :
  (∀ x y, f x = f y → h x = h y → x = y) →
  f <$> xs = f <$> ys → h <$> xs = h <$> ys → xs = ys.
Proof.
  intros Hinj. revert ys.
  induction xs as [|x xs IH]; intros [|y ys] Hf Hh; try done.
  rewrite !fmap_cons in Hf. rewrite !fmap_cons in Hh.
  injection Hf as Hf1 Hf2. injection Hh as Hh1 Hh2.
  f_equal; [by apply Hinj|by apply IH].
Qed.

End melt_layout.

(** The melted frame is laid out in two blocks of the aggregate's length:
    row [i] is the satisfaction record of entry [i], and row
    [length grouped + i] is its feedback record. *)
Theorem melted_location_df_layout (grouped : list LocationAggregate)
    (i : nat) (e : LocationAggregate) :
  grouped !! i = Some e →
  length (melted_location_df grouped) = (2 * length grouped)%nat
  ∧ melted_location_df grouped !! i
    = Some {| mlt_Location := grp_Location e;
              Metric := "Avg_Satisfaction_Score";
              Average_Score := Avg_Satisfaction_Score e |}
  ∧ melted_location_df grouped !! (length grouped + i)%nat
    = Some {| mlt_Location := grp_Location e;
              Metric := "Avg_Feedback_Score";
              Average_Score := Avg_Feedback_Score e |}.
Proof.
  intros Hi. pose proof (lookup_lt_Some _ _ _ Hi) as Hlt.
  unfold melted_location_df. split_and!.
  - rewrite length_app, !length_fmap. lia.
  - rewrite lookup_app_l by (by rewrite length_fmap).
    by rewrite list_lookup_fmap, Hi.
  - rewrite lookup_app_r by (rewrite length_fmap; lia).
    rewrite length_fmap, list_lookup_fmap.
    replace (length grouped + i - length grouped)%nat with i by lia.
    by rewrite Hi.
Qed.

Lemma melted_location_df_layout_witness :
  let grouped := grouped_location_df sample in
  let e := {| grp_Location := "NY"; Avg_Satisfaction_Score := Some 3%Q;
              Avg_Feedback_Score := Some 4%Q |} in
  grouped !! 1%nat = Some e
  ∧ length (melted_location_df grouped) = (2 * length grouped)%nat
  ∧ melted_location_df grouped !! 1%nat
    = Some {| mlt_Location := "NY"; Metric := "Avg_Satisfaction_Score";
              Average_Score := Some 3%Q |}
  ∧ melted_location_df grouped !! (length grouped + 1)%nat
    = Some {| mlt_Location := "NY"; Metric := "Avg_Feedback_Score";
              Average_Score := Some 4%Q |}.
Proof.
  cbv zeta. split; [reflexivity|].
  apply (melted_location_df_layout (grouped_location_df sample) 1
           {| grp_Location := "NY"; Avg_Satisfaction_Score := Some 3%Q;
              Avg_Feedback_Score := Some 4%Q |}).
  reflexivity.
Defined.

(** Melting loses nothing: two aggregates with the same melted frame are
    the same aggregate. *)
Theorem melted_location_df_inj (g1 g2 : list LocationAggregate) :
  melted_location_df g1 = melted_location_df g2 → g1 = g2.
Proof.
  intros Heq. unfold melted_location_df in Heq.
  assert (length g1 = length g2) as Hlen.
  { apply (f_equal length) in Heq.
    rewrite !length_app, !length_fmap in Heq. lia. }
  apply app_inj_1 in Heq as [Hsat Hfb]; [|by rewrite !length_fmap].
  eapply fmap_pair_inj; [|exact Hsat|exact Hfb].
  intros [l1 s1 f1] [l2 s2 f2] Hs Hf. cbn in Hs, Hf. by simplify_eq.
Qed.

Lemma melted_location_df_inj_witness :
  melted_location_df (grouped_location_df sample)
  = melted_location_df (grouped_location_df (filtered_df sample 25 40 ["LA"; "NY"]))
  ∧ grouped_location_df sample
    = grouped_location_df (filtered_df sample 25 40 ["LA"; "NY"]).
Proof.
  split; [reflexivity|].
  apply (melted_location_df_inj (grouped_location_df sample)
           (grouped_location_df (filtered_df sample 25 40 ["LA"; "NY"]))).
  reflexivity.
Defined.

(** ** The filter controls of the layout, lines 91-109 *)

Section layout.
Implicit Types (table : DataFrame) (ages : list Z).

Lemma series_min_elem (s : list Z) (m : Z) : series_min s = Some m → m ∈ s.
Proof.
  destruct s as [|y s]; [done|]. cbn. intros [= <-].
  induction s as [|z s IH]; cbn; [left|].
  destruct (Z.min_spec z (foldr Z.min y s)) as [[_ ->]|[_ ->]].
  - right. left.
  - apply elem_of_cons in IH as [->|IH]; [left|by do 2 right].
Qed.

Lemma series_max_elem (s : list Z) (m : Z) : series_max s = Some m → m ∈ s.
Proof.
  destruct s as [|y s]; [done|]. cbn. intros [= <-].
  induction s as [|z s IH]; cbn; [left|].
  destruct (Z.max_spec z (foldr Z.max y s)) as [[_ ->]|[_ ->]].
  - apply elem_of_cons in IH as [->|IH]; [left|by do 2 right].
  - right. left.
Qed.

Lemma elem_of_range (start stop step x : Z) :
  0 < step →
  x ∈ Layout.range start stop step
  ↔ start ≤ x < stop ∧ (x - start) `mod` step = 0.
Proof.
  intros Hstep. unfold Layout.range. rewrite list_elem_of_fmap.
  setoid_rewrite elem_of_seqZ.
  pose proof (Z.mul_div_le (stop - start + step - 1) step Hstep) as Hq.
  split.
  - intros (k & -> & Hk). split; [nia|].
    replace (start + step * k - start) with (k * step) by lia.
    apply Z_mod_mult.
  - intros [Hx Hmod]. exists ((x - start) `div` step).
    pose proof (Z_div_mod_eq_full (x - start) step) as Hdiv.
    rewrite Hmod in Hdiv. split; [lia|]. split.
    + apply Z.div_pos; lia.
    + cut ((x - start) `div` step + 1 ≤ (stop - start + step - 1) `div` step);
        [lia|].
      apply Z.div_le_lower_bound; [done|]. lia.
Qed.

Lemma NoDup_range (start stop step : Z) :
  0 < step → NoDup (Layout.range start stop step).
Proof.
  intros Hstep. unfold Layout.range.
  apply NoDup_fmap_2; [|apply NoDup_seqZ]. intros k1 k2 Heq. nia.
Qed.

Lemma marks_of_snoc ages a :
  Layout.marks_of (ages ++ [a])
  = <[Layout.str a := Layout.str a]> (Layout.marks_of ages).
Proof. unfold Layout.marks_of. by rewrite foldl_snoc. Qed.

Lemma marks_of_lookup ages (k v : string) :
  Layout.marks_of ages !! k = Some v
  ↔ v = k ∧ ∃ a, a ∈ ages ∧ k = Layout.str a.
Proof.
  induction ages as [|a ages IH] using rev_ind.
  - unfold Layout.marks_of. cbn. rewrite lookup_empty.
    split; [done|]. intros (_ & a & Ha & _). by apply elem_of_nil in Ha.
  - rewrite marks_of_snoc, lookup_insert_Some, IH.
    setoid_rewrite elem_of_app. setoid_rewrite list_elem_of_singleton.
    split.
    + intros [[<- <-]|[Hne (-> & b & Hb & ->)]]; naive_solver.
    + intros (-> & b & [Hb| ->] & ->); [|by left].
      destruct (decide (Layout.str a = Layout.str b)) as [Heq|Hne];
        [by left|right]. naive_solver.
Qed.

Lemma marks_of_size ages : NoDup ages → size (Layout.marks_of ages) = length ages.
Proof.
  induction ages as [|a ages IH] using rev_ind; intros Hnd.
  - unfold Layout.marks_of. cbn. apply map_size_empty.
  - apply NoDup_app in Hnd as (Hnd & Hdisj & _).
    rewrite marks_of_snoc, length_app. cbn [length].
    rewrite map_size_insert_None; [rewrite IH by done; lia|].
    destruct (Layout.marks_of ages !! Layout.str a) as [v|] eqn:E; [|done].
    apply marks_of_lookup in E as (_ & b & Hb & Hab).
    apply (inj pretty) in Hab as <-. exfalso.
    apply (Hdisj a Hb). left.
Qed.

(** With the selection left as the layout sets it, the filter keeps the
    whole table. *)
Lemma filtered_df_defaults table (lo hi : Z) :
  age_range_value table = [Some lo; Some hi] →
  filtered_df table lo hi (location_filter_value table) = table.
Proof.
  unfold age_range_value, location_filter_value. intros [= Hmin Hmax].
  rewrite filtered_df_filter. apply filter_all.
  intros p Hp. unfold selected, col in *. split_and!.
  - eapply series_min_le; [done|].
    by apply (list_elem_of_fmap_2 (λ p, Age p.2)).
  - eapply series_max_ge; [done|].
    by apply (list_elem_of_fmap_2 (λ p, Age p.2)).
  - apply elem_of_unique. by apply (list_elem_of_fmap_2 (λ p, Location p.2)).
Qed.

End layout.

Section unique_order.

Lemma unique_snoc (s : list string) (x : string) :
  unique (s ++ [x])
  = if decide (x ∈ s) then unique s else (unique s ++ [x])%list.
Proof.
  induction s as [|y s IH]; [done|].
  cbn [app unique]. rewrite IH.
  destruct (decide (x ∈ s)) as [Hin|Hnotin].
  - rewrite decide_True by (by right). done.
  - rewrite filter_app, filter_cons, filter_nil.
    destruct (decide (x ≠ y)) as [Hne|Heq];
      destruct (decide (x ∈ y :: s)) as [Hin|Hnin].
    + apply elem_of_cons in Hin as [?|?]; done.
    + done.
    + by rewrite app_nil_r.
    + exfalso. apply Hnin. destruct (decide (x = y)) as [->|?]; [left|done].
Qed.

End unique_order.

(** For a table with at least one row the slider has proper bounds: its
    two ends are ages that occur in the table, the lower is not above the
    upper, every age of the table lies between them, and the initial
    value is the whole range. *)
Theorem age_range_slider_bounds (table : DataFrame) :
  table ≠ [] →
  ∃ lo hi,
    age_range_value table = [Some lo; Some hi]
    ∧ lo ≤ hi
    ∧ lo ∈ col Age table ∧ hi ∈ col Age table
    ∧ ∀ p, p ∈ table → lo ≤ Age p.2 ≤ hi.
Proof.
  intros Hne. destruct table as [|q table]; [done|].
  unfold age_range_value.
  destruct (series_min (col Age (q :: table))) as [lo|] eqn:Hlo; [|done].
  destruct (series_max (col Age (q :: table))) as [hi|] eqn:Hhi; [|done].
  exists lo, hi.
  assert (∀ p, p ∈ q :: table → lo ≤ Age p.2 ≤ hi) as Hall.
  { intros p Hp. split.
    - eapply series_min_le; [done|].
      by apply (list_elem_of_fmap_2 (λ p, Age p.2)).
    - eapply series_max_ge; [done|].
      by apply (list_elem_of_fmap_2 (λ p, Age p.2)). }
  split_and!; [done| |by apply series_min_elem|by apply series_max_elem|done].
  specialize (Hall q ltac:(left)). lia.
Qed.

Lemma age_range_slider_bounds_witness :
  ∃ lo hi,
    age_range_value sample = [Some lo; Some hi]
    ∧ lo ≤ hi
    ∧ lo ∈ col Age sample ∧ hi ∈ col Age sample
    ∧ ∀ p, p ∈ sample → lo ≤ Age p.2 ≤ hi.
Proof. apply (age_range_slider_bounds sample). discriminate. Defined.

(** Building the slider raises [ValueError] exactly when the table has
    no row: the least age is then NaN and [int] rejects it. *)
Theorem age_range_ValueError_iff (table : DataFrame) :
  Layout.age_range table = inl Layout.ValueError ↔ table = [].
Proof.
  split; [|by intros ->].
  destruct table as [|q table]; [done|]. intros Herr. exfalso.
  unfold Layout.age_range in Herr. cbn in Herr. discriminate.
Qed.

(** The marks of the slider: one mark every ten years from the least age
    on, up to the greatest age, each labelled with the age it stands at.
    The greatest age has a mark only if it lies a multiple of ten above
    the least. *)
Theorem age_range_marks (table : DataFrame) (s : Layout.RangeSlider) :
  Layout.age_range table = inr s →
  ∃ lo hi,
    Layout.min s = Some lo ∧ Layout.max s = Some hi ∧ lo ≤ hi
    ∧ (∀ k v, Layout.marks s !! k = Some v
              ↔ v = k ∧ ∃ a, k = Layout.str a
                             ∧ lo ≤ a ≤ hi ∧ (a - lo) `mod` 10 = 0)
    ∧ size (Layout.marks s) = Z.to_nat ((hi - lo) `div` 10 + 1).
Proof.
  intros Hs. destruct table as [|q table]; [done|].
  destruct (age_range_slider_bounds (q :: table)) as
    (lo & hi & Hval & Hle & _); [done|].
  unfold age_range_value in Hval.
  assert (series_min (col Age (q :: table)) = Some lo
          ∧ series_max (col Age (q :: table)) = Some hi) as [Hlo Hhi]
    by (split; congruence).
  unfold Layout.age_range in Hs. cbv zeta in Hs.
  rewrite Hlo, Hhi in Hs. cbn in Hs.
  injection Hs as <-. exists lo, hi. cbn. split_and!; [done..| |].
  - intros k v. rewrite marks_of_lookup.
    setoid_rewrite elem_of_range; [|lia..]. split.
    + intros (-> & a & [? ?] & ->). split; [done|]. exists a.
      split_and!; [done|lia..|done].
    + intros (-> & a & -> & ? & ?). split; [done|]. exists a.
      split_and!; [lia..|done|done].
  - rewrite marks_of_size by (apply NoDup_range; lia).
    unfold Layout.range. rewrite length_fmap, length_seqZ. f_equal.
    replace (hi + 1 - lo + 10 - 1) with (hi - lo + 1 * 10) by lia.
    by rewrite Z_div_plus by lia.
Qed.

Lemma age_range_marks_witness :
  ∃ s, Layout.age_range sample = inr s
  ∧ ∃ lo hi,
    Layout.min s = Some lo ∧ Layout.max s = Some hi ∧ lo ≤ hi
    ∧ (∀ k v, Layout.marks s !! k = Some v
              ↔ v = k ∧ ∃ a, k = Layout.str a
                             ∧ lo ≤ a ≤ hi ∧ (a - lo) `mod` 10 = 0)
    ∧ size (Layout.marks s) = Z.to_nat ((hi - lo) `div` 10 + 1).
Proof.
  eexists. split; [reflexivity|].
  eapply (age_range_marks sample). reflexivity.
Defined.

(** The dropdown offers every location of the table exactly once, each
    under its own name, and starts with all of them selected. *)
Theorem location_filter_options (table : DataFrame) :
  let d := Layout.location_filter table in
  NoDup (Layout.opt_value <$> Layout.options d)
  ∧ (∀ l, l ∈ Layout.opt_value <$> Layout.options d
          ↔ ∃ p, p ∈ table ∧ Location p.2 = l)
  ∧ (∀ o, o ∈ Layout.options d → Layout.label o = Layout.opt_value o)
  ∧ Layout.selection d = Layout.opt_value <$> Layout.options d.
Proof.
  cbv zeta. unfold Layout.location_filter, location_filter_value. cbn.
  assert (Layout.opt_value <$>
            ((λ loc, {| Layout.label := loc; Layout.opt_value := loc |})
             <$> unique (col Location table))
          = unique (col Location table)) as Hvals.
  { rewrite <- list_fmap_compose. etrans; [|apply list_fmap_id].
    by apply list_fmap_ext. }
  rewrite Hvals. split_and!.
  - apply NoDup_unique.
  - intros l. rewrite elem_of_unique. unfold col.
    rewrite list_elem_of_fmap. naive_solver.
  - by intros o (loc & -> & _)%list_elem_of_fmap.
  - done.
Qed.

(** The options stand in the order in which the locations first appear in
    the table: a row added at the end adds an option at the end if its
    location is new, and changes nothing otherwise. *)
Theorem location_filter_options_append (table : DataFrame)
    (p : nat * CustomerRecord) :
  Layout.opt_value <$> Layout.options (Layout.location_filter (table ++ [p]))
  = if decide (Location p.2 ∈ col Location table)
    then Layout.opt_value <$> Layout.options (Layout.location_filter table)
    else ((Layout.opt_value <$> Layout.options (Layout.location_filter table))
          ++ [Location p.2])%list.
Proof.
  assert (∀ t, Layout.opt_value <$> Layout.options (Layout.location_filter t)
               = unique (col Location t)) as Hvals.
  { intros t. unfold Layout.location_filter. cbn.
    rewrite <- list_fmap_compose. etrans; [|apply list_fmap_id].
    by apply list_fmap_ext. }
  rewrite !Hvals. unfold col. rewrite fmap_app. cbn [fmap list_fmap].
  apply unique_snoc.
Qed.

(** ** Import-time figures and the callback, lines 9-73 and 161-224 *)

(** Called with the values the controls start with, the callback returns
    the four figures that were prepared at import time, and leaves the
    module state as it was. *)
Theorem initial_figures_are_default_callback (rows : list CustomerRecord)
    (lo hi : Z) :
  let g := module_init rows in
  age_range_value (Globals.df g) = [Some lo; Some hi] →
  update_graphs [lo; hi] (location_filter_value (Globals.df g)) g
  = (Ok (initial_satisfaction_fig g, initial_age_satisfaction_fig g,
         initial_location_analysis_fig g, initial_products_analysis_fig g),
     g).
Proof.
  cbv zeta. intros Hval. apply injective_projections.
  - rewrite update_graphs_ok. cbv zeta.
    rewrite (filtered_df_defaults _ lo hi Hval). done.
  - apply update_graphs_state.
Qed.

Lemma initial_figures_are_default_callback_witness :
  let rows := [row 25 "NY" 4 3; row 40 "NY" 2 5; row 30 "LA" 5 4] in
  let g := module_init rows in
  age_range_value (Globals.df g) = [Some 25; Some 40]
  ∧ update_graphs [25; 40] (location_filter_value (Globals.df g)) g
    = (Ok (initial_satisfaction_fig g, initial_age_satisfaction_fig g,
           initial_location_analysis_fig g, initial_products_analysis_fig g),
       g).
Proof.
  cbv zeta. split; [reflexivity|].
  apply (initial_figures_are_default_callback
           [row 25 "NY" 4 3; row 40 "NY" 2 5; row 30 "LA" 5 4] 25 40).
  reflexivity.
Defined.
